(** * Comment tree synchronisation of the Gamerfeeds front end

    Shallow embedding of [frontend/src/types/comment.ts] and of the pure
    helpers and store actions of [frontend/src/store/commentStore.ts]:
    [updateCommentRecursive] (edit / delete), [updateCommentReplies] (reply
    insertion), the insertion branch shared by [addGameComment],
    [addNewsComment] and [addDiscussionComment], and the token guard of
    [updateComment] / [deleteComment]. *)

From Stdlib Require Import ZArith List String Ascii Bool Permutation Lia Btauto.
Import ListNotations.
Open Scope Z_scope.

(** ** Data model ([types/comment.ts]) *)

Record comment_user := mkUser {
  user_id_ : Z;
  username : string;
  firstname : string;
  lastname : string;
  email : string;
  avatar : option string
}.

(** [interface Comment]; [parent_id: number | null] is an [option Z] and
    [replies: Comment[]] a list of comments (an array is always present in
    the declared type). *)
Local Unset Elimination Schemes.
Inductive comment := mkComment {
  id : Z;
  content : string;
  created_at : string;
  updated_at : string;
  user_id : Z;
  parent_id : option Z;
  user : comment_user;
  replies : list comment;
  content_type : string;
  content_id : Z
}.
Local Set Elimination Schemes.

(** The object spread [{ ...comment, replies: rs }]. *)
Definition with_replies (c : comment) (rs : list comment) : comment :=
  mkComment (id c) (content c) (created_at c) (updated_at c) (user_id c)
    (parent_id c) (user c) rs (content_type c) (content_id c).

(** [comment.replies && comment.replies.length > 0] *)
Definition has_replies (c : comment) : bool :=
  match replies c with [] => false | _ :: _ => true end.

(** Induction over comments: a property of every reply is available when
    proving it of their parent. *)
Section comment_ind.
Variable P : comment -> Prop.
Hypothesis P_node : forall i ct ca ua uid p u rs cty cid,
  Forall P rs -> P (mkComment i ct ca ua uid p u rs cty cid).

Fixpoint comment_ind (c : comment) : P c :=
  match c with
  | mkComment i ct ca ua uid p u rs cty cid =>
      P_node i ct ca ua uid p u rs cty cid
        ((fix go (l : list comment) : Forall P l :=
            match l with
            | [] => Forall_nil P
            | c' :: l' => Forall_cons c' (comment_ind c') (go l')
            end) rs)
  end.
End comment_ind.

(** ** [updateCommentRecursive] (lines 23-53)

    [comments.reduce((acc, comment) => ..., [])]; [None] is the [null]
    argument, meaning delete.  [reduce_step] is the callback
    [(acc, comment) => ...]; the recursive call
    [updateCommentRecursive(comment.replies, ...)] is the same reduction
    over the replies. *)
Fixpoint reduce_step (commentId : Z) (updatedComment : option comment)
    (acc : list comment) (c : comment) {struct c} : list comment :=
  match c with
  | mkComment i ct ca ua uid p u rs cty cid =>
      if i =? commentId then
        match updatedComment with
        | None => acc
        | Some uc => acc ++ [uc]
        end
      else if has_replies c then
        acc ++ [with_replies c (fold_left (reduce_step commentId updatedComment) rs [])]
      else acc ++ [c]
  end.

Definition updateCommentRecursive (comments : list comment) (commentId : Z)
    (updatedComment : option comment) : list comment :=
  fold_left (reduce_step commentId updatedComment) comments [].

(** ** [updateCommentReplies] (lines 56-78): [comments.map(...)];
    [map_step] is the callback. *)
Fixpoint map_step (commentId : Z) (transform : comment -> comment)
    (c : comment) {struct c} : comment :=
  match c with
  | mkComment i ct ca ua uid p u rs cty cid =>
      if i =? commentId then transform c
      else if has_replies c then
        with_replies c (map (map_step commentId transform) rs)
      else c
  end.

Definition updateCommentReplies (comments : list comment) (commentId : Z)
    (transform : comment -> comment) : list comment :=
  map (map_step commentId transform) comments.

(** The transform passed by the [add*Comment] actions:
    [(parent) => ({ ...parent, replies: [newComment, ...parent.replies] })]. *)
Definition prepend_reply (newComment : comment) (parent : comment) : comment :=
  with_replies parent (newComment :: replies parent).

(** JavaScript truthiness of [comment.parent_id : number | null]:
    [!comment.parent_id] holds for [null] and for the number [0]. *)
Definition js_not_parent (p : option Z) : bool :=
  match p with
  | None => true
  | Some z => z =? 0
  end.

(** The forest update of [addGameComment] (lines 235-255), identical in
    [addNewsComment] and [addDiscussionComment]: [req_parent] is the
    [parent_id] of the request DTO, [newComment] the node returned by the
    backend. *)
Definition addComment (comments : list comment) (req_parent : option Z)
    (newComment : comment) : list comment :=
  if js_not_parent req_parent then newComment :: comments
  else
    match req_parent with
    | Some pid => updateCommentReplies comments pid (prepend_reply newComment)
    | None => comments
    end.

(** The specification's operations on forests.  The backend echoes the
    request's parent id in the node it creates, so [Insert F node] is the
    insertion driven by [parent_id node]. *)
Definition Insert (F : list comment) (node : comment) : list comment :=
  addComment F (parent_id node) node.

Definition Replace (F : list comment) (x : Z) (n : option comment) : list comment :=
  updateCommentRecursive F x n.

(** ** Ids and well-formedness *)

(** All ids of a comment's subtree and of a forest, in pre-order. *)
Fixpoint comment_ids (c : comment) : list Z :=
  match c with
  | mkComment i _ _ _ _ _ _ rs _ _ => i :: flat_map comment_ids rs
  end.

Definition forest_ids (l : list comment) : list Z := flat_map comment_ids l.

(** The node carries [pid] as parent id, and every reply below it carries
    the id of the node whose [replies] hold it. *)
Definition parent_ok (p pid : option Z) : bool :=
  match p, pid with
  | None, None => true
  | Some a, Some b => a =? b
  | _, _ => false
  end.

Fixpoint tree_ok (pid : option Z) (c : comment) : bool :=
  match c with
  | mkComment i _ _ _ _ p _ rs _ _ =>
      parent_ok p pid && forallb (tree_ok (Some i)) rs
  end.

Definition trees_ok (pid : option Z) (l : list comment) : bool :=
  forallb (tree_ok pid) l.

Fixpoint nodupb (l : list Z) : bool :=
  match l with
  | [] => true
  | x :: xs => negb (existsb (Z.eqb x) xs) && nodupb xs
  end.

(** Ids unique in the whole forest, roots with a [null] parent, every
    reply nested inside the reply list of its parent. *)
Definition wf_forest (F : list comment) : Prop :=
  NoDup (forest_ids F) /\ trees_ok None F = true.

Definition wf_forestb (F : list comment) : bool :=
  nodupb (forest_ids F) && trees_ok None F.

(** ** Positions in a forest

    A one-hole context: the hole is a segment of a sibling sequence at any
    depth; [Under pre n post k] descends into the replies of [n]. *)
Inductive ctx :=
| Hole (pre post : list comment)
| Under (pre : list comment) (n : comment) (post : list comment) (k : ctx).

Fixpoint plug (k : ctx) (xs : list comment) : list comment :=
  match k with
  | Hole pre post => pre ++ xs ++ post
  | Under pre n post k' => pre ++ with_replies n (plug k' xs) :: post
  end.

(** Ids of the nodes of the context (the replies of a node [n] on the
    path are the ones given by the context, not [replies n]). *)
Fixpoint ctx_ids (k : ctx) : list Z :=
  match k with
  | Hole pre post => forest_ids pre ++ forest_ids post
  | Under pre n post k' => forest_ids pre ++ id n :: ctx_ids k' ++ forest_ids post
  end.

(** The parent id expected at the hole, and the parent-id discipline of
    the context itself. *)
Fixpoint hole_parent (pid : option Z) (k : ctx) : option Z :=
  match k with
  | Hole _ _ => pid
  | Under _ n _ k' => hole_parent (Some (id n)) k'
  end.

Fixpoint ctx_ok (pid : option Z) (k : ctx) : bool :=
  match k with
  | Hole pre post => trees_ok pid pre && trees_ok pid post
  | Under pre n post k' =>
      trees_ok pid pre && parent_ok (parent_id n) pid &&
      ctx_ok (Some (id n)) k' && trees_ok pid post
  end.

(** The context one sibling further right. *)
Definition cons_ctx (c : comment) (k : ctx) : ctx :=
  match k with
  | Hole pre post => Hole (c :: pre) post
  | Under pre n post k' => Under (c :: pre) n post k'
  end.

(** ** The store ([useCommentStore]) *)

(** [interface CommentState], data part. *)
Record CommentState := mkState {
  comments : list comment;
  isLoading : bool;
  error : option string
}.

(** Truthiness of a token [string | null]. *)
Definition js_truthy_token (t : option string) : bool :=
  match t with
  | None => false
  | Some s => negb (String.eqb s ""%string)
  end.

(** [getAuthToken] (lines 114-124): the auth store's token, or the
    [localStorage] entry when the former is falsy. *)
Definition getAuthToken (storeToken localToken : option string) : option string :=
  if js_truthy_token storeToken then storeToken else localToken.

(** What [fetch] followed by [handleResponse] produces: the parsed body, or
    an [Error] thrown with a message. *)
Inductive response (A : Type) :=
| Ok (v : A)
| Failed (msg : string).
Arguments Ok {A} v.
Arguments Failed {A} msg.

(** [updateComment] (lines 367-403), run without interleaving: the first
    [set] raises [isLoading] and clears [error]; a thrown error is caught
    and its message stored. *)
Definition updateComment (st : CommentState) (storeToken localToken : option string)
    (commentId : Z) (resp : response comment) : CommentState :=
  let st1 := mkState (comments st) true None in
  let token := getAuthToken storeToken localToken in
  if negb (js_truthy_token token) then
    mkState (comments st1) false (Some "You must be logged in to update a comment"%string)
  else
    match resp with
    | Failed m => mkState (comments st1) false (Some m)
    | Ok updated =>
        mkState (updateCommentRecursive (comments st1) commentId (Some updated))
          false (error st1)
    end.

(** [deleteComment] (lines 405-442); [resp] is [Failed m] when the status is
    neither 204 nor ok and [handleResponse] throws. *)
Definition deleteComment (st : CommentState) (storeToken localToken : option string)
    (commentId : Z) (resp : response unit) : CommentState :=
  let st1 := mkState (comments st) true None in
  let token := getAuthToken storeToken localToken in
  if negb (js_truthy_token token) then
    mkState (comments st1) false (Some "You must be logged in to delete a comment"%string)
  else
    match resp with
    | Failed m => mkState (comments st1) false (Some m)
    | Ok _ =>
        mkState (updateCommentRecursive (comments st1) commentId None)
          false (error st1)
    end.

(** ** The synchronisation operations of the specification *)

Inductive sync_op :=
| OpInsert (node : comment)
| OpReplace (x : Z) (n : comment)
| OpRemove (x : Z).

Definition apply_op (F : list comment) (op : sync_op) : list comment :=
  match op with
  | OpInsert node => Insert F node
  | OpReplace x n => Replace F x (Some n)
  | OpRemove x => Replace F x None
  end.

(** The operations as the backend drives them: a created node has a fresh
    id, no replies, and a [null] parent or an existing parent (with a
    non-zero id); an edited node keeps the id and parent of the node it
    replaces and carries no replies. *)
Definition op_ok (F : list comment) (op : sync_op) : Prop :=
  match op with
  | OpInsert node =>
      ~ In (id node) (forest_ids F) /\ replies node = [] /\
      (parent_id node = None \/
       exists p, parent_id node = Some p /\ p <> 0 /\ In p (forest_ids F))
  | OpReplace x n =>
      id n = x /\ replies n = [] /\
      (forall k N, F = plug k [N] -> id N = x -> parent_id n = parent_id N)
  | OpRemove _ => True
  end.

(** ** JavaScript values met by [handleResponse] *)

(** The values a parsed JSON body can hold in a [detail] field (numbers
    restricted to integers), with [JUndef] for a missing property. *)
Local Unset Elimination Schemes.
Inductive js_value :=
| JUndef
| JNull
| JBool (b : bool)
| JNum (z : Z)
| JStr (s : string)
| JArr (l : list js_value)
| JObj.
Local Set Elimination Schemes.

Definition js_truthy (v : js_value) : bool :=
  match v with
  | JUndef | JNull => false
  | JBool b => b
  | JNum z => negb (z =? 0)
  | JStr s => negb (String.eqb s ""%string)
  | JArr _ | JObj => true
  end.

(** [Array.prototype.join(",")]. *)
Fixpoint js_join (l : list string) : string :=
  match l with
  | [] => ""%string
  | [x] => x
  | x :: xs => String.append x (String.append ","%string (js_join xs))
  end.

(** Decimal digits of a non-negative integer, most significant first. *)
Fixpoint digits (fuel : nat) (n : Z) (acc : string) : string :=
  match fuel with
  | O => acc
  | S f =>
      let acc' := String (ascii_of_nat (48 + Z.to_nat (n mod 10))) acc in
      if n <? 10 then acc' else digits f (n / 10) acc'
  end.

(** [String(n)] for an integer [n]. *)
Definition string_of_Z (n : Z) : string :=
  if n <? 0 then String.append "-"%string (digits (S (S (Z.to_nat (Z.log2 (- n))))) (- n) ""%string)
  else digits (S (S (Z.to_nat (Z.log2 n)))) n ""%string.

(** [String(v)]; array elements that are [null] or [undefined] print as
    the empty string. *)
Fixpoint js_to_string (v : js_value) : string :=
  match v with
  | JUndef => "undefined"%string
  | JNull => "null"%string
  | JBool b => if b then "true"%string else "false"%string
  | JNum z => string_of_Z z
  | JStr s => s
  | JArr l =>
      js_join (map (fun e => match e with
                             | JUndef | JNull => ""%string
                             | _ => js_to_string e
                             end) l)
  | JObj => "[object Object]"%string
  end.

(** ** [handleResponse] (lines 81-111) *)

(** A [fetch] [Response]: its status, status text, and the result of
    [response.json()] ([None] when parsing throws). *)
Record raw_response (J : Type) := mkResp {
  status : Z;
  statusText : string;
  body : option J
}.
Arguments mkResp {J} status statusText body.
Arguments status {J} r.
Arguments statusText {J} r.
Arguments body {J} r.

(** [response.ok]: a status in the range 200-299. *)
Definition resp_ok {J} (r : raw_response J) : bool :=
  (200 <=? status r) && (status r <=? 299).

(** [empty] is the object [{}] returned for a 204; [detail j] reads
    [errorData.detail] ([None] when the read throws, for a [null] body). *)
Definition handleResponse {J} (empty : J) (detail : J -> option js_value)
    (r : raw_response J) : response J :=
  if negb (resp_ok r) then
    let fallback :=
      String.append "Error: "%string
        (String.append (string_of_Z (status r))
           (String.append " "%string (statusText r))) in
    Failed
      match body r with
      | None => fallback
      | Some j =>
          match detail j with
          | None => fallback
          | Some v =>
              if js_truthy v then js_to_string v
              else String.append "Error: "%string (string_of_Z (status r))
          end
      end
  else if status r =? 204 then Ok empty
  else
    match body r with
    | None => Failed "Invalid response format from server"%string
    | Some j => Ok j
    end.

(** ** The remaining store actions *)

(** [fetchGameComments], [fetchNewsComments], [fetchDiscussionComments]
    (lines 131-212): [r] is the outcome of [fetch] and [handleResponse]. *)
Definition fetchComments (st : CommentState) (r : response (list comment)) : CommentState :=
  let st1 := mkState (comments st) true None in
  match r with
  | Ok data => mkState data false (error st1)
  | Failed m => mkState [] false (Some m)
  end.

(** [addGameComment] (lines 214-263), identical in [addNewsComment] and
    [addDiscussionComment]. *)
Definition addCommentAction (st : CommentState) (storeToken localToken : option string)
    (req_parent : option Z) (r : response comment) : CommentState :=
  let st1 := mkState (comments st) true None in
  let token := getAuthToken storeToken localToken in
  if negb (js_truthy_token token) then
    mkState (comments st1) false (Some "You must be logged in to add a comment"%string)
  else
    match r with
    | Failed m => mkState (comments st1) false (Some m)
    | Ok newComment =>
        mkState (addComment (comments st1) req_parent newComment) false (error st1)
    end.

(** [deleteComment] fed with the raw [Response]: [handleResponse] is only
    called when [response.status !== 204 && !response.ok]. *)
Definition deleteCommentRaw {J} (st : CommentState) (storeToken localToken : option string)
    (commentId : Z) (empty : J) (detail : J -> option js_value)
    (r : raw_response J) : CommentState :=
  deleteComment st storeToken localToken commentId
    (if negb (status r =? 204) && negb (resp_ok r) then
       match handleResponse empty detail r with
       | Failed m => Failed m
       | Ok _ => Ok tt
       end
     else Ok tt).

(** ** [CommentsSection] (components/CommentsSection.tsx) *)

(** The branch rendered (lines 180-291). *)
Inductive section_view := VSpinner | VError | VNoComments | VList.

Definition section_view_of (st : CommentState) : section_view :=
  if isLoading st then VSpinner
  else if js_truthy_token (error st) then VError
  else match comments st with [] => VNoComments | _ :: _ => VList end.

(** The local state of the section. *)
Record section_ui := mkUi {
  newComment : string;
  replyingTo : option Z;
  replyContent : string
}.

(** [handleStartReply] (lines 147-150). *)
Definition handleStartReply (ui : section_ui) (parentId : Z) : section_ui :=
  mkUi (newComment ui) (Some parentId) ""%string.

(** The ids of the top-level comments under which a reply form is rendered:
    [replyingTo === comment.id] inside [comments.map] (lines 251-285). *)
Definition reply_forms (ui : section_ui) (roots : list comment) : list Z :=
  map id (filter (fun c => match replyingTo ui with
                           | Some r => r =? id c
                           | None => false
                           end) roots).

(** JavaScript white space among the code units below 256: tab, line
    feed, vertical tab, form feed, carriage return, space, no-break space. *)
Definition is_js_space (a : ascii) : bool :=
  let n := nat_of_ascii a in
  ((9 <=? n) && (n <=? 13))%nat || (n =? 32)%nat || (n =? 160)%nat.

(** [s.trim()] is non-empty. *)
Definition js_trim_nonempty (s : string) : bool :=
  existsb (fun a => negb (is_js_space a)) (list_ascii_of_string s).

(** What a submit handler does besides updating the local state. *)
Inductive submit_effect :=
| NavigateLogin
| SendAdd (content : string) (parent_id : option Z)
| NoSubmit.

(** [handleSubmitComment] (lines 78-110); [isAuthenticated] is [!!token]
    of the auth store. *)
Definition handleSubmitComment (storeToken : option string) (ui : section_ui)
    : submit_effect * section_ui :=
  if negb (js_truthy_token storeToken) then (NavigateLogin, ui)
  else if js_trim_nonempty (newComment ui) then
    (SendAdd (newComment ui) None, mkUi ""%string (replyingTo ui) (replyContent ui))
  else (NoSubmit, ui).

(** [handleSubmitReply] (lines 112-145). *)
Definition handleSubmitReply (storeToken : option string) (ui : section_ui) (parentId : Z)
    : submit_effect * section_ui :=
  if negb (js_truthy_token storeToken) then (NavigateLogin, ui)
  else if js_trim_nonempty (replyContent ui) then
    (SendAdd (replyContent ui) (Some parentId), mkUi (newComment ui) None ""%string)
  else (NoSubmit, ui).

(** ** [CommentItem] (components/CommentItem.tsx) *)

(** The action buttons of one comment (lines 105-132); [userId] is
    [userData?.id] ([None] when no user data is loaded). *)
Record item_buttons := mkButtons {
  show_reply : bool;
  show_edit_delete : bool
}.

Definition comment_buttons (token : option string) (userId : option Z)
    (isEditing : bool) (c : comment) : item_buttons :=
  let isAuthenticated := js_truthy_token token in
  let isOwnComment := match userId with None => false | Some u => u =? user_id c end in
  mkButtons (isAuthenticated && negb isOwnComment) (isOwnComment && negb isEditing).

(** The comments rendered when a thread is first displayed: replies are
    shown when [showReplies] starts true, i.e. [depth < 2] (lines 25 and
    134-167). *)
Fixpoint rendered_ids (depth : nat) (c : comment) : list Z :=
  match c with
  | mkComment i _ _ _ _ _ _ rs _ _ =>
      i :: (if has_replies c && (depth <? 2)%nat
            then flat_map (rendered_ids (S depth)) rs else [])
  end.

Definition initially_rendered (roots : list comment) : list Z :=
  flat_map (rendered_ids 0) roots.

(** Ids of the nodes at depth at most [n] below a node, in pre-order. *)
Fixpoint ids_upto (n : nat) (c : comment) : list Z :=
  match c with
  | mkComment i _ _ _ _ _ _ rs _ _ =>
      i :: match n with O => [] | S m => flat_map (ids_upto m) rs end
  end.

(** ** Small inputs *)

Definition u0 : comment_user := mkUser 7 "gamer" "Ada" "L" "ada@x.org" None.

Definition mk (i : Z) (p : option Z) (txt : string) (rs : list comment) : comment :=
  mkComment i txt "2025-01-01" "2025-01-01" 7 p u0 rs "game" 42.

Definition ex_F : list comment := [mk 1 None "a" [mk 2 (Some 1) "b" []]].

(** An edited node with replies, and the node returned by the edit
    endpoint (new content, no replies). *)
Definition ed_N : comment := mk 1 None "old" [mk 2 (Some 1) "reply" []].
Definition ed_N' : comment := mk 1 None "edited" [].
Definition ed_k : ctx := Hole [mk 5 None "other" []] [].
Definition ed_F : list comment := plug ed_k [ed_N].

(** A root with id [0] and a reply request naming it. *)
Definition z_P : comment := mk 0 None "p" [].
Definition z_reply : comment := mk 1 (Some 0) "r" [].

Example ex_string_of_Z :
  string_of_Z 404 = "404"%string /\ string_of_Z 0 = "0"%string /\
  string_of_Z (-12) = "-12"%string /\ string_of_Z 1000 = "1000"%string.
Proof. repeat split. Qed.

Example ex_js_to_string :
  js_to_string (JArr [JNum 1; JNull; JStr "a"; JArr [JBool true; JUndef]]) = "1,,a,true,"%string.
Proof. reflexivity. Qed.

Example ex_handleResponse :
  handleResponse (J := js_value) JObj (fun _ => Some JUndef) (mkResp 404 "Not Found" (Some JObj))
  = Failed "Error: 404"%string /\
  handleResponse (J := js_value) JObj (fun _ => Some JUndef) (mkResp 500 "Server Error" None)
  = Failed "Error: 500 Server Error"%string.
Proof. split; reflexivity. Qed.

Example ex_insert :
  Insert ex_F (mk 3 (Some 1) "c" []) = [mk 1 None "a" [mk 3 (Some 1) "c" []; mk 2 (Some 1) "b" []]].
Proof. reflexivity. Qed.

Example ex_roundtrip :
  Replace (Insert ex_F (mk 3 (Some 1) "c" [])) 3 None = ex_F.
Proof. reflexivity. Qed.

(** * Structural lemmas *)

Lemma with_replies_self (c : comment) : with_replies c (replies c) = c.
Proof. destruct c; reflexivity. Qed.

Lemma with_replies_twice (c : comment) (a b : list comment) :
  with_replies (with_replies c a) b = with_replies c b.
Proof. destruct c; reflexivity. Qed.

Lemma id_with_replies (c : comment) (a : list comment) : id (with_replies c a) = id c.
Proof. destruct c; reflexivity. Qed.

Lemma parent_with_replies (c : comment) (a : list comment) :
  parent_id (with_replies c a) = parent_id c.
Proof. destruct c; reflexivity. Qed.

Lemma replies_with_replies (c : comment) (a : list comment) : replies (with_replies c a) = a.
Proof. destruct c; reflexivity. Qed.

Lemma comment_ids_eq (c : comment) : comment_ids c = id c :: forest_ids (replies c).
Proof. destruct c; reflexivity. Qed.

Lemma forest_ids_cons (c : comment) (l : list comment) :
  forest_ids (c :: l) = comment_ids c ++ forest_ids l.
Proof. reflexivity. Qed.

Lemma forest_ids_app (l1 l2 : list comment) :
  forest_ids (l1 ++ l2) = forest_ids l1 ++ forest_ids l2.
Proof. unfold forest_ids. apply flat_map_app. Qed.

Ltac tree_simpl :=
  rewrite ?id_with_replies, ?parent_with_replies, ?replies_with_replies,
    ?with_replies_twice, ?forest_ids_app, ?forest_ids_cons.

Lemma plug_ids_perm (k : ctx) (xs : list comment) :
  Permutation (forest_ids (plug k xs)) (ctx_ids k ++ forest_ids xs).
Proof.
  induction k as [pre post | pre n post k IH]; simpl; tree_simpl.
  - rewrite <- !app_assoc. apply Permutation_app_head.
    apply Permutation_app_comm.
  - rewrite comment_ids_eq, replies_with_replies, id_with_replies.
    rewrite <- !app_assoc. apply Permutation_app_head. simpl.
    apply perm_skip. rewrite <- app_assoc.
    apply (Permutation_trans (Permutation_app_tail _ IH)).
    rewrite <- !app_assoc. apply Permutation_app_head.
    apply Permutation_app_comm.
Qed.

Lemma plug_cons_ctx (c : comment) (k : ctx) (xs : list comment) :
  plug (cons_ctx c k) xs = c :: plug k xs.
Proof. destruct k; reflexivity. Qed.

Lemma nodup_app_disj (l1 l2 : list Z) (a : Z) :
  NoDup (l1 ++ l2) -> In a l2 -> ~ In a l1.
Proof.
  induction l1 as [|b l1 IH]; simpl; intros Hnd Hin.
  - tauto.
  - inversion Hnd as [|? ? Hb Hnd']; subst.
    intros [-> | H].
    + apply Hb. apply in_or_app. now right.
    + exact (IH Hnd' Hin H).
Qed.

(** The hole of a context over a duplicate-free forest shares no id with
    the context. *)
Lemma plug_nodup_disj (k : ctx) (xs : list comment) (a : Z) :
  NoDup (forest_ids (plug k xs)) -> In a (forest_ids xs) -> ~ In a (ctx_ids k).
Proof.
  intros Hnd Hin.
  apply (Permutation_NoDup (plug_ids_perm k xs)) in Hnd.
  exact (nodup_app_disj _ _ _ Hnd Hin).
Qed.

(** ** The reduction of [updateCommentRecursive] *)

Lemma reduce_step_acc (x : Z) (u : option comment) (acc : list comment) (c : comment) :
  reduce_step x u acc c = acc ++ reduce_step x u [] c.
Proof.
  destruct c as [i ct ca ua uid p us rs cty cid]; simpl.
  destruct (i =? x); [destruct u|]; simpl; rewrite ?app_nil_r; try reflexivity.
  destruct rs; reflexivity.
Qed.

Lemma fold_reduce (x : Z) (u : option comment) (l acc : list comment) :
  fold_left (reduce_step x u) l acc = acc ++ updateCommentRecursive l x u.
Proof.
  unfold updateCommentRecursive. revert acc.
  induction l as [|c l IH]; intros acc; simpl.
  - now rewrite app_nil_r.
  - rewrite (IH (reduce_step x u acc c)), (IH (reduce_step x u [] c)).
    rewrite reduce_step_acc. now rewrite app_assoc.
Qed.

Lemma ucr_nil (x : Z) (u : option comment) : updateCommentRecursive [] x u = [].
Proof. reflexivity. Qed.

Lemma ucr_cons (x : Z) (u : option comment) (c : comment) (l : list comment) :
  updateCommentRecursive (c :: l) x u = reduce_step x u [] c ++ updateCommentRecursive l x u.
Proof. unfold updateCommentRecursive at 1. simpl. apply fold_reduce. Qed.

Lemma ucr_app (x : Z) (u : option comment) (l1 l2 : list comment) :
  updateCommentRecursive (l1 ++ l2) x u
  = updateCommentRecursive l1 x u ++ updateCommentRecursive l2 x u.
Proof.
  induction l1 as [|c l1 IH]; simpl; [reflexivity|].
  rewrite !ucr_cons, IH. apply app_assoc.
Qed.

Lemma reduce_step_match (x : Z) (u : option comment) (c : comment) :
  id c = x -> reduce_step x u [] c = match u with None => [] | Some v => [v] end.
Proof.
  destruct c; simpl; intros ->. rewrite Z.eqb_refl. now destruct u.
Qed.

Lemma reduce_step_nomatch (x : Z) (u : option comment) (c : comment) :
  id c <> x ->
  reduce_step x u [] c = [with_replies c (updateCommentRecursive (replies c) x u)].
Proof.
  destruct c as [i ct ca ua uid p us rs cty cid]; simpl; intros H.
  rewrite (proj2 (Z.eqb_neq _ _) H). destruct rs; reflexivity.
Qed.

(** An id absent from a subtree leaves the reduction of that subtree
    unchanged. *)
Lemma ucr_notin_of (x : Z) (u : option comment) (l : list comment) :
  Forall (fun c => ~ In x (comment_ids c) -> reduce_step x u [] c = [c]) l ->
  ~ In x (forest_ids l) -> updateCommentRecursive l x u = l.
Proof.
  induction 1 as [|c l Hc Hl IH]; intros Hx; [reflexivity|].
  rewrite forest_ids_cons in Hx. rewrite ucr_cons, Hc, IH; [reflexivity| |];
  intros H; apply Hx, in_or_app; auto.
Qed.

Lemma reduce_step_notin (x : Z) (u : option comment) (c : comment) :
  ~ In x (comment_ids c) -> reduce_step x u [] c = [c].
Proof.
  induction c as [i ct ca ua uid p us rs cty cid IH] using comment_ind; intros Hx.
  rewrite reduce_step_nomatch by (intros <-; apply Hx; now left).
  simpl replies. rewrite ucr_notin_of; [reflexivity|exact IH|].
  intros H. apply Hx. now right.
Qed.

Lemma ucr_notin (x : Z) (u : option comment) (l : list comment) :
  ~ In x (forest_ids l) -> updateCommentRecursive l x u = l.
Proof.
  apply ucr_notin_of. apply Forall_forall. intros c _. apply reduce_step_notin.
Qed.

(** Away from the target id, the reduction commutes with a context. *)
Lemma ucr_plug (x : Z) (u : option comment) (k : ctx) (xs : list comment) :
  ~ In x (ctx_ids k) ->
  updateCommentRecursive (plug k xs) x u = plug k (updateCommentRecursive xs x u).
Proof.
  induction k as [pre post | pre n post k IH]; simpl; intros Hx.
  - rewrite !ucr_app, (ucr_notin x u pre), (ucr_notin x u post); [reflexivity| |];
    intros H; apply Hx, in_or_app; auto.
  - rewrite ucr_app, ucr_cons, (ucr_notin x u pre), (ucr_notin x u post);
      [| intros H; apply Hx, in_or_app; right; right; apply in_or_app; auto
       | intros H; apply Hx, in_or_app; auto].
    rewrite reduce_step_nomatch
      by (rewrite id_with_replies; intros <-; apply Hx, in_or_app; right; now left).
    tree_simpl. rewrite IH; [reflexivity|].
    intros H; apply Hx, in_or_app; right; right; apply in_or_app; auto.
Qed.

(** ** The map of [updateCommentReplies] *)

Lemma map_step_match (x : Z) (t : comment -> comment) (c : comment) :
  id c = x -> map_step x t c = t c.
Proof. destruct c; simpl; intros ->. now rewrite Z.eqb_refl. Qed.

Lemma map_step_nomatch (x : Z) (t : comment -> comment) (c : comment) :
  id c <> x -> map_step x t c = with_replies c (updateCommentReplies (replies c) x t).
Proof.
  destruct c as [i ct ca ua uid p us rs cty cid]; simpl; intros H.
  rewrite (proj2 (Z.eqb_neq _ _) H). destruct rs; reflexivity.
Qed.

Lemma map_step_notin (x : Z) (t : comment -> comment) (c : comment) :
  ~ In x (comment_ids c) -> map_step x t c = c.
Proof.
  induction c as [i ct ca ua uid p us rs cty cid IH] using comment_ind; intros Hx.
  rewrite map_step_nomatch by (intros <-; apply Hx; now left).
  simpl replies. unfold updateCommentReplies.
  rewrite map_ext_in with (g := fun c => c); [now rewrite map_id|].
  intros c Hc. rewrite Forall_forall in IH. apply IH; [exact Hc|].
  intros H. apply Hx. right. apply in_flat_map. eauto.
Qed.

Lemma ucrep_notin (x : Z) (t : comment -> comment) (l : list comment) :
  ~ In x (forest_ids l) -> updateCommentReplies l x t = l.
Proof.
  intros Hx. unfold updateCommentReplies.
  rewrite map_ext_in with (g := fun c => c); [now rewrite map_id|].
  intros c Hc. apply map_step_notin. intros H. apply Hx.
  apply in_flat_map. eauto.
Qed.

Lemma ucrep_app (x : Z) (t : comment -> comment) (l1 l2 : list comment) :
  updateCommentReplies (l1 ++ l2) x t
  = updateCommentReplies l1 x t ++ updateCommentReplies l2 x t.
Proof. apply map_app. Qed.

Lemma ucrep_plug (x : Z) (t : comment -> comment) (k : ctx) (xs : list comment) :
  ~ In x (ctx_ids k) ->
  updateCommentReplies (plug k xs) x t = plug k (updateCommentReplies xs x t).
Proof.
  induction k as [pre post | pre n post k IH]; simpl; intros Hx.
  - rewrite !ucrep_app, (ucrep_notin x t pre), (ucrep_notin x t post); [reflexivity| |];
    intros H; apply Hx, in_or_app; auto.
  - rewrite ucrep_app. change (updateCommentReplies (?c :: ?l) x t)
      with (map_step x t c :: updateCommentReplies l x t).
    rewrite (ucrep_notin x t pre), (ucrep_notin x t post);
      [| intros H; apply Hx, in_or_app; right; right; apply in_or_app; auto
       | intros H; apply Hx, in_or_app; auto].
    rewrite map_step_nomatch
      by (rewrite id_with_replies; intros <-; apply Hx, in_or_app; right; now left).
    tree_simpl. rewrite IH; [reflexivity|].
    intros H; apply Hx, in_or_app; right; right; apply in_or_app; auto.
Qed.

Lemma nodupb_spec (l : list Z) : nodupb l = true <-> NoDup l.
Proof.
  induction l as [|a l IH]; simpl.
  - split; [constructor|reflexivity].
  - rewrite andb_true_iff, negb_true_iff, IH. split.
    + intros [Hn Hl]. constructor; [|exact Hl].
      intros Hin. assert (existsb (Z.eqb a) l = true) as Hc
        by (apply existsb_exists; exists a; split; [exact Hin | apply Z.eqb_refl]).
      congruence.
    + intros Hnd. inversion Hnd as [|? ? Ha Hl]; subst. split; [|exact Hl].
      destruct (existsb (Z.eqb a) l) eqn:E; [|reflexivity].
      apply existsb_exists in E as [b [Hb Hab]].
      apply Z.eqb_eq in Hab. subst b. contradiction.
Qed.

Lemma wf_forestb_spec (F : list comment) : wf_forestb F = true <-> wf_forest F.
Proof.
  unfold wf_forestb, wf_forest. rewrite andb_true_iff, nodupb_spec. reflexivity.
Qed.

(** The reply insertion followed by the removal of the inserted id gives
    back every subtree the insertion passed through. *)
Lemma remove_after_insert_of (x pid : Z) (node : comment) (l : list comment) :
  id node = x ->
  Forall (fun c => ~ In x (comment_ids c) ->
            reduce_step x None [] (map_step pid (prepend_reply node) c) = [c]) l ->
  ~ In x (forest_ids l) ->
  updateCommentRecursive (updateCommentReplies l pid (prepend_reply node)) x None = l.
Proof.
  intros Hid. induction 1 as [|c l Hc Hl IH]; intros Hx; [reflexivity|].
  rewrite forest_ids_cons in Hx.
  change (updateCommentReplies (c :: l) pid (prepend_reply node))
    with (map_step pid (prepend_reply node) c :: updateCommentReplies l pid (prepend_reply node)).
  rewrite ucr_cons, Hc, IH; [reflexivity| |]; intros H; apply Hx, in_or_app; auto.
Qed.

Lemma remove_after_insert_step (pid : Z) (node : comment) (c : comment) :
  ~ In (id node) (comment_ids c) ->
  reduce_step (id node) None [] (map_step pid (prepend_reply node) c) = [c].
Proof.
  induction c as [i ct ca ua uid p us rs cty cid IH] using comment_ind; intros Hx.
  assert (i <> id node) as Hi by (intros ->; apply Hx; now left).
  assert (~ In (id node) (forest_ids rs)) as Hrs by (intros H; apply Hx; now right).
  destruct (Z.eq_dec i pid) as [-> | Hp].
  - rewrite map_step_match by reflexivity. unfold prepend_reply.
    rewrite reduce_step_nomatch by (rewrite id_with_replies; exact Hi).
    tree_simpl. rewrite ucr_cons, reduce_step_match by reflexivity.
    simpl replies. rewrite ucr_notin by exact Hrs. reflexivity.
  - rewrite map_step_nomatch by exact Hp.
    rewrite reduce_step_nomatch by (rewrite id_with_replies; exact Hi).
    tree_simpl. simpl replies.
    rewrite remove_after_insert_of; [reflexivity|reflexivity|exact IH|exact Hrs].
Qed.

Lemma remove_after_insert (pid : Z) (node : comment) (F : list comment) :
  ~ In (id node) (forest_ids F) ->
  updateCommentRecursive (updateCommentReplies F pid (prepend_reply node)) (id node) None = F.
Proof.
  intros Hx. apply remove_after_insert_of; [reflexivity| |exact Hx].
  apply Forall_forall. intros c _. apply remove_after_insert_step.
Qed.

(** The hole of a context holding [P] is [P] itself, looked up by id. *)
Lemma split_of (p : Z) (l : list comment) :
  Forall (fun c => In p (comment_ids c) ->
            id c = p \/ exists k N, replies c = plug k [N] /\ id N = p) l ->
  In p (forest_ids l) -> exists k N, l = plug k [N] /\ id N = p.
Proof.
  induction 1 as [|c l Hc Hl IH]; simpl; intros Hin; [contradiction|].
  apply in_app_or in Hin as [Hin | Hin].
  - destruct (Hc Hin) as [Hid | [k [N [Hk HN]]]].
    + exists (Hole [] l), c. split; [reflexivity|exact Hid].
    + exists (Under [] c l k), N. split; [|exact HN].
      simpl. rewrite <- Hk, with_replies_self. reflexivity.
  - destruct (IH Hin) as [k [N [Hk HN]]].
    exists (cons_ctx c k), N. split; [|exact HN].
    rewrite plug_cons_ctx, <- Hk. reflexivity.
Qed.

Lemma split_comment (p : Z) (c : comment) :
  In p (comment_ids c) -> id c = p \/ exists k N, replies c = plug k [N] /\ id N = p.
Proof.
  induction c as [i ct ca ua uid q us rs cty cid IH] using comment_ind; intros Hin.
  destruct Hin as [Hin | Hin]; [left; exact Hin|].
  right. apply split_of; [exact IH|exact Hin].
Qed.

Lemma split_forest (p : Z) (F : list comment) :
  In p (forest_ids F) -> exists k N, F = plug k [N] /\ id N = p.
Proof.
  apply split_of. apply Forall_forall. intros c _. apply split_comment.
Qed.

(** ** Operations at a position *)

Lemma replace_at (k : ctx) (N : comment) (u : option comment) :
  NoDup (forest_ids (plug k [N])) ->
  Replace (plug k [N]) (id N) u = plug k match u with None => [] | Some v => [v] end.
Proof.
  intros Hnd. unfold Replace. rewrite ucr_plug.
  - rewrite ucr_cons, reduce_step_match by reflexivity. now rewrite app_nil_r.
  - apply (plug_nodup_disj k [N]); [exact Hnd|].
    rewrite forest_ids_cons, comment_ids_eq. now left.
Qed.

Lemma insert_under (k : ctx) (P node : comment) :
  NoDup (forest_ids (plug k [P])) -> parent_id node = Some (id P) -> id P <> 0 ->
  Insert (plug k [P]) node = plug k [prepend_reply node P].
Proof.
  intros Hnd Hp Hz. unfold Insert, addComment. rewrite Hp. simpl js_not_parent.
  rewrite (proj2 (Z.eqb_neq _ _) Hz). rewrite ucrep_plug.
  - unfold updateCommentReplies. simpl. now rewrite map_step_match.
  - apply (plug_nodup_disj k [P]); [exact Hnd|].
    rewrite forest_ids_cons, comment_ids_eq. now left.
Qed.

Lemma insert_absent_parent (F : list comment) (node : comment) (p : Z) :
  parent_id node = Some p -> p <> 0 -> ~ In p (forest_ids F) -> Insert F node = F.
Proof.
  intros Hp Hz Hin. unfold Insert, addComment. rewrite Hp. simpl js_not_parent.
  rewrite (proj2 (Z.eqb_neq _ _) Hz). apply ucrep_notin, Hin.
Qed.

Lemma insert_root_prepends_helper (F : list comment) (node : comment) :
  parent_id node = None -> Insert F node = node :: F.
Proof. intros Hp. unfold Insert, addComment. now rewrite Hp. Qed.

(** ** Well-formedness through a context *)

Lemma tree_ok_eq (pid : option Z) (c : comment) :
  tree_ok pid c = parent_ok (parent_id c) pid && trees_ok (Some (id c)) (replies c).
Proof. destruct c; reflexivity. Qed.

Lemma trees_ok_app (pid : option Z) (l1 l2 : list comment) :
  trees_ok pid (l1 ++ l2) = trees_ok pid l1 && trees_ok pid l2.
Proof. apply forallb_app. Qed.

Lemma trees_ok_cons (pid : option Z) (c : comment) (l : list comment) :
  trees_ok pid (c :: l) = tree_ok pid c && trees_ok pid l.
Proof. reflexivity. Qed.

Lemma trees_ok_plug (pid : option Z) (k : ctx) (xs : list comment) :
  trees_ok pid (plug k xs) = ctx_ok pid k && trees_ok (hole_parent pid k) xs.
Proof.
  revert pid. induction k as [pre post | pre n post k IH]; intros pid; simpl.
  - rewrite !trees_ok_app. btauto.
  - rewrite trees_ok_app, trees_ok_cons, tree_ok_eq. tree_simpl.
    rewrite IH. btauto.
Qed.

(** Replacing the hole's single node by a node of the same id and parent
    with no replies, or by nothing, keeps a forest well formed. *)
Lemma wf_plug_shrink (k : ctx) (N : comment) (xs : list comment) :
  wf_forest (plug k [N]) ->
  (xs = [] \/ exists n, xs = [n] /\ id n = id N /\ parent_id n = parent_id N /\ replies n = []) ->
  wf_forest (plug k xs).
Proof.
  intros [Hnd Hok] Hxs. split.
  - apply (Permutation_NoDup (Permutation_sym (plug_ids_perm k xs))).
    apply (Permutation_NoDup (plug_ids_perm k [N])) in Hnd.
    rewrite forest_ids_cons, comment_ids_eq in Hnd. simpl in Hnd.
    destruct Hxs as [-> | [n [-> [Hid [_ Hr]]]]]; simpl.
    + rewrite app_nil_r. exact (NoDup_app_remove_r _ _ Hnd).
    + rewrite comment_ids_eq, Hr, Hid. simpl.
      change (id N :: forest_ids (replies N) ++ [])
        with ([id N] ++ forest_ids (replies N) ++ []) in Hnd.
      rewrite app_assoc in Hnd. exact (NoDup_app_remove_r _ _ Hnd).
  - rewrite trees_ok_plug in *. apply andb_true_iff in Hok as [Hk HN].
    rewrite Hk. simpl.
    destruct Hxs as [-> | [n [-> [_ [Hp Hr]]]]]; [reflexivity|].
    rewrite trees_ok_cons, tree_ok_eq, Hp, Hr in *. simpl.
    apply andb_true_iff in HN as [HN _]. apply andb_true_iff in HN as [HN _].
    now rewrite HN.
Qed.

(** * The claims *)

(** ** Replace *)

(** C5: for an id [x] present nowhere in [F], [Replace F x n] is [F], for a
    replacement node [n] as for the removal [n = None]; the result is a
    plain value, no error. *)
Theorem replace_unknown_id_noop (F : list comment) (x : Z) (n : option comment) :
  ~ In x (forest_ids F) -> Replace F x n = F.
Proof. apply ucr_notin. Qed.

Lemma replace_unknown_id_noop_witness :
  ~ In 9 (forest_ids ex_F) /\ Replace ex_F 9 None = ex_F.
Proof.
  split; [simpl; lia|].
  apply replace_unknown_id_noop. simpl; lia.
Defined.

(** C1, as stated: the node at [N]'s position after an edit keeps [N]'s
    replies.  It does not: [Replace] puts the returned node itself there,
    so an edit whose returned node carries no replies leaves no replies. *)
Lemma replace_keeps_replies_cex :
  ed_F = plug ed_k [ed_N] /\ replies ed_N <> [] /\ replies ed_N' = [] /\
  Replace ed_F (id ed_N) (Some ed_N') = plug ed_k [ed_N'] /\
  Replace ed_F (id ed_N) (Some ed_N') <> plug ed_k [with_replies ed_N' (replies ed_N)].
Proof.
  repeat split; try reflexivity; vm_compute; discriminate.
Qed.

(** C1, amended: in a forest with unique ids, [Replace F N.id N'] puts
    [N'] as given (its own content and replies) at [N]'s position and
    leaves the rest of the forest unchanged. *)
Theorem replace_substitutes_at_position (k : ctx) (N N' : comment) :
  NoDup (forest_ids (plug k [N])) ->
  Replace (plug k [N]) (id N) (Some N') = plug k [N'].
Proof.
  intros Hnd. unfold Replace.
  rewrite ucr_plug.
  - rewrite ucr_cons, reduce_step_match by reflexivity. reflexivity.
  - apply (plug_nodup_disj k [N]); [exact Hnd|].
    rewrite forest_ids_cons, comment_ids_eq. now left.
Qed.

Lemma replace_substitutes_at_position_witness :
  NoDup (forest_ids (plug ed_k [ed_N])) /\
  Replace (plug ed_k [ed_N]) (id ed_N) (Some ed_N') = plug ed_k [ed_N'].
Proof.
  split; [apply nodupb_spec; vm_compute; reflexivity|].
  apply replace_substitutes_at_position. apply nodupb_spec. vm_compute. reflexivity.
Defined.

(** C3: in a forest with unique ids, removing [N] (at any depth) gives the
    forest with the hole left empty: [N]'s former siblings in their order,
    and no id of [N]'s subtree anywhere. *)
Theorem remove_excises_subtree (k : ctx) (N : comment) :
  NoDup (forest_ids (plug k [N])) ->
  Replace (plug k [N]) (id N) None = plug k [] /\
  (forall d, In d (comment_ids N) -> ~ In d (forest_ids (Replace (plug k [N]) (id N) None))).
Proof.
  intros Hnd.
  assert (Hdisj : forall d, In d (comment_ids N) -> ~ In d (ctx_ids k)).
  { intros d Hd. apply (plug_nodup_disj k [N]); [exact Hnd|].
    rewrite forest_ids_cons. apply in_or_app. now left. }
  assert (Hres : Replace (plug k [N]) (id N) None = plug k []).
  { unfold Replace. rewrite ucr_plug.
    - rewrite ucr_cons, reduce_step_match by reflexivity. reflexivity.
    - apply Hdisj. rewrite comment_ids_eq. now left. }
  split; [exact Hres|].
  intros d Hd Hin. rewrite Hres in Hin.
  apply (Permutation_in _ (plug_ids_perm k [])) in Hin.
  simpl in Hin. rewrite app_nil_r in Hin. exact (Hdisj d Hd Hin).
Qed.

Lemma remove_excises_subtree_witness :
  NoDup (forest_ids (plug ed_k [ed_N])) /\
  Replace (plug ed_k [ed_N]) (id ed_N) None = plug ed_k [].
Proof.
  split; [apply nodupb_spec; vm_compute; reflexivity|].
  apply remove_excises_subtree. apply nodupb_spec. vm_compute. reflexivity.
Defined.

(** ** Insert *)

(** C2: inserting a node whose id is fresh in [F] and then removing that
    id gives back [F] (whatever the parent the insertion used). *)
Theorem insert_then_remove_roundtrip (F : list comment) (node : comment) :
  ~ In (id node) (forest_ids F) -> Replace (Insert F node) (id node) None = F.
Proof.
  intros Hx. unfold Replace, Insert, addComment.
  destruct (js_not_parent (parent_id node)).
  - rewrite ucr_cons, reduce_step_match by reflexivity. apply ucr_notin, Hx.
  - destruct (parent_id node) as [pid|].
    + apply remove_after_insert, Hx.
    + apply ucr_notin, Hx.
Qed.

Lemma insert_then_remove_roundtrip_witness :
  ~ In 3 (forest_ids ex_F) /\
  Replace (Insert ex_F (mk 3 (Some 1) "c" [])) 3 None = ex_F.
Proof.
  split; [simpl; lia|].
  apply (insert_then_remove_roundtrip ex_F (mk 3 (Some 1) "c" [])). simpl; lia.
Defined.

(** C8: a node with a [null] parent is prepended to the root sequence. *)
Theorem insert_root_prepends (F : list comment) (node : comment) :
  parent_id node = None -> Insert F node = node :: F.
Proof. intros Hp. unfold Insert, addComment. now rewrite Hp. Qed.

Lemma insert_root_prepends_witness :
  parent_id (mk 3 None "c" []) = None /\
  Insert ex_F (mk 3 None "c" []) = mk 3 None "c" [] :: ex_F.
Proof. split; [reflexivity|]. apply insert_root_prepends. reflexivity. Defined.

(** C9: the root insertion does not look at the forest: a node whose id is
    already present is prepended all the same, and its id then occurs
    (at least) twice. *)
Theorem insert_root_no_dup_check (F : list comment) (node : comment) :
  parent_id node = None -> In (id node) (forest_ids F) ->
  Insert F node = node :: F /\
  (2 <= count_occ Z.eq_dec (forest_ids (Insert F node)) (id node))%nat.
Proof.
  intros Hp Hin. unfold Insert, addComment. rewrite Hp. cbn [js_not_parent]. split; [reflexivity|].
  rewrite forest_ids_cons, comment_ids_eq, count_occ_app.
  rewrite count_occ_cons_eq by reflexivity.
  apply (count_occ_In Z.eq_dec) in Hin. lia.
Qed.

Lemma insert_root_no_dup_check_witness :
  parent_id (mk 1 None "dup" []) = None /\ In 1 (forest_ids ex_F) /\
  Insert ex_F (mk 1 None "dup" []) = mk 1 None "dup" [] :: ex_F.
Proof.
  split; [reflexivity|]. split; [simpl; tauto|].
  apply (insert_root_no_dup_check ex_F (mk 1 None "dup" [])); [reflexivity|simpl; tauto].
Defined.

(** C4, as stated, fails on a parent whose id is [0]: [!comment.parent_id]
    is true for [0], so the reply is prepended to the root sequence and the
    parent's replies stay as they were. *)
Theorem insert_parent_zero_goes_to_root :
  Insert (plug (Hole [] []) [z_P]) z_reply = [z_reply; z_P] /\
  Insert (plug (Hole [] []) [z_P]) z_reply
    <> plug (Hole [] []) [prepend_reply z_reply z_P].
Proof. split; [reflexivity|]. vm_compute. discriminate. Qed.

(** C6, as stated, fails on the parent id [0] absent from the forest: the
    node is prepended to the root sequence instead of being dropped. *)
Theorem insert_missing_parent_zero_not_dropped :
  ~ In 0 (forest_ids ex_F) /\
  Insert ex_F z_reply = z_reply :: ex_F /\ Insert ex_F z_reply <> ex_F.
Proof.
  split; [simpl; lia|]. split; [reflexivity|].
  vm_compute. discriminate.
Qed.

(** ** The forest invariant *)

(** C7, as stated: an insertion whose node reuses an id already present
    takes a well-formed forest to one with a duplicated id. *)
Lemma sync_preserves_wf_cex :
  wf_forest ex_F /\ ~ wf_forest (apply_op ex_F (OpInsert (mk 1 None "dup" []))).
Proof.
  split.
  - apply wf_forestb_spec. reflexivity.
  - rewrite <- wf_forestb_spec. vm_compute. discriminate.
Qed.

(** C7, amended: from a well-formed forest (unique ids, roots with a
    [null] parent, every reply inside its parent's replies), an insertion
    of a fresh node without replies under [null] or under an existing
    parent of non-zero id, a replacement by a node with the target's id and
    parent and no replies, and any removal all give a well-formed forest. *)
Theorem sync_preserves_wf (F : list comment) (op : sync_op) :
  wf_forest F -> op_ok F op -> wf_forest (apply_op F op).
Proof.
  intros Hwf Hop. destruct op as [node | x n | x]; simpl in Hop |- *.
  - destruct Hop as [Hfresh [Hr [Hp | [p [Hp [Hz Hin]]]]]].
    + rewrite (insert_root_prepends_helper F node Hp).
      destruct Hwf as [Hnd Hok]. split.
      * rewrite forest_ids_cons, comment_ids_eq, Hr. simpl. now constructor.
      * rewrite trees_ok_cons, tree_ok_eq, Hp, Hr, Hok. reflexivity.
    + destruct (split_forest p F Hin) as [k [P [-> <-]]].
      destruct Hwf as [Hnd Hok].
      rewrite (insert_under k P node Hnd Hp Hz). split.
      * apply (Permutation_NoDup (Permutation_sym (plug_ids_perm k _))).
        apply (Permutation_NoDup (plug_ids_perm k [P])) in Hnd.
        assert (Hnot : ~ In (id node) (ctx_ids k ++ forest_ids [P]))
          by (intros H; apply Hfresh, (Permutation_in _ (Permutation_sym (plug_ids_perm k [P]))), H).
        assert (E : forest_ids [prepend_reply node P]
                    = id P :: id node :: forest_ids (replies P)).
        { unfold prepend_reply. rewrite forest_ids_cons, comment_ids_eq.
          rewrite id_with_replies, replies_with_replies, forest_ids_cons, comment_ids_eq, Hr.
          simpl. now rewrite app_nil_r. }
        assert (EP : forest_ids [P] = id P :: forest_ids (replies P)).
        { rewrite forest_ids_cons, comment_ids_eq. simpl. now rewrite app_nil_r. }
        rewrite E. rewrite EP in Hnd, Hnot.
        change (id P :: id node :: forest_ids (replies P))
          with ([id P] ++ id node :: forest_ids (replies P)).
        rewrite app_assoc.
        apply (Permutation_NoDup (Permutation_middle _ _ _)).
        rewrite <- app_assoc. simpl. constructor; assumption.
      * rewrite trees_ok_plug in *.
        assert (T : trees_ok (hole_parent None k) [prepend_reply node P]
                    = trees_ok (hole_parent None k) [P]).
        { unfold prepend_reply. rewrite !trees_ok_cons, !tree_ok_eq.
          rewrite parent_with_replies, id_with_replies, replies_with_replies.
          rewrite trees_ok_cons, tree_ok_eq, Hp, Hr. simpl.
          rewrite Z.eqb_refl. reflexivity. }
        rewrite T. exact Hok.
  - destruct Hop as [Hid [Hr Hpar]].
    destruct (in_dec Z.eq_dec x (forest_ids F)) as [Hin | Hin].
    + destruct (split_forest x F Hin) as [k [N [-> HN]]].
      unfold Replace. rewrite <- HN.
      change (updateCommentRecursive (plug k [N]) (id N) (Some n))
        with (Replace (plug k [N]) (id N) (Some n)).
      rewrite (replace_at k N (Some n) (proj1 Hwf)).
      apply (wf_plug_shrink k N); [exact Hwf|].
      right. exists n. repeat split; [congruence| |exact Hr].
      apply (Hpar k N); [reflexivity|exact HN].
    + unfold Replace. rewrite ucr_notin by exact Hin. exact Hwf.
  - destruct (in_dec Z.eq_dec x (forest_ids F)) as [Hin | Hin].
    + destruct (split_forest x F Hin) as [k [N [-> <-]]].
      rewrite (replace_at k N None (proj1 Hwf)).
      apply (wf_plug_shrink k N); [exact Hwf|now left].
    + unfold Replace. rewrite ucr_notin by exact Hin. exact Hwf.
Qed.

Lemma sync_preserves_wf_witness :
  wf_forest ex_F /\ op_ok ex_F (OpInsert (mk 3 (Some 1) "c" [])) /\
  wf_forest (apply_op ex_F (OpInsert (mk 3 (Some 1) "c" []))).
Proof.
  assert (Hwf : wf_forest ex_F) by (apply wf_forestb_spec; reflexivity).
  assert (Hop : op_ok ex_F (OpInsert (mk 3 (Some 1) "c" []))).
  { simpl. split; [lia|]. split; [reflexivity|].
    right. exists 1. split; [reflexivity|]. split; [lia|]. now left. }
  split; [exact Hwf|]. split; [exact Hop|].
  exact (sync_preserves_wf ex_F _ Hwf Hop).
Defined.

(** ** The store's error path *)

(** C10: without a usable token, [updateComment] and [deleteComment] leave
    the forest as it was, clear [isLoading] and store an error message. *)
Theorem no_token_error_path (st : CommentState) (storeToken localToken : option string)
    (commentId : Z) (r1 : response comment) (r2 : response unit) :
  js_truthy_token (getAuthToken storeToken localToken) = false ->
  (comments (updateComment st storeToken localToken commentId r1) = comments st /\
   isLoading (updateComment st storeToken localToken commentId r1) = false /\
   error (updateComment st storeToken localToken commentId r1) <> None) /\
  (comments (deleteComment st storeToken localToken commentId r2) = comments st /\
   isLoading (deleteComment st storeToken localToken commentId r2) = false /\
   error (deleteComment st storeToken localToken commentId r2) <> None).
Proof.
  intros H. unfold updateComment, deleteComment. rewrite H. simpl.
  repeat split; discriminate.
Qed.

Lemma no_token_error_path_witness :
  js_truthy_token (getAuthToken (Some ""%string) None) = false /\
  comments (deleteComment (mkState ex_F false None) (Some ""%string) None 1 (Ok tt)) = ex_F.
Proof.
  split; [reflexivity|].
  exact (proj1 (proj2 (no_token_error_path (mkState ex_F false None) (Some ""%string) None 1
          (Failed "x"%string) (Ok tt) eq_refl))).
Defined.

(** * Further properties of the store and of its callers *)

(** ** Helpers *)


Lemma remove_ids_of (x : Z) (l : list comment) :
  Forall (fun c => ~ In x (forest_ids (reduce_step x None [] c)) /\
                   incl (forest_ids (reduce_step x None [] c)) (comment_ids c)) l ->
  ~ In x (forest_ids (updateCommentRecursive l x None)) /\
  incl (forest_ids (updateCommentRecursive l x None)) (forest_ids l).
Proof.
  induction 1 as [|c l [Hn Hi] Hl [IHn IHi]]; [split; [simpl; tauto | apply incl_refl]|].
  rewrite ucr_cons, forest_ids_app, forest_ids_cons. split.
  - intros H. apply in_app_or in H as [H | H]; auto.
  - apply incl_app; [apply incl_appl, Hi | apply incl_appr, IHi].
Qed.

Lemma remove_ids_step (x : Z) (c : comment) :
  ~ In x (forest_ids (reduce_step x None [] c)) /\
  incl (forest_ids (reduce_step x None [] c)) (comment_ids c).
Proof.
  induction c as [i ct ca ua uid p us rs cty cid IH] using comment_ind.
  destruct (Z.eq_dec i x) as [<- | Hx].
  - rewrite reduce_step_match by reflexivity. split; [simpl; tauto | intros a []].
  - rewrite reduce_step_nomatch by exact Hx. simpl replies.
    destruct (remove_ids_of x rs IH) as [Hn Hi].
    rewrite forest_ids_cons, comment_ids_eq, id_with_replies, replies_with_replies.
    simpl. rewrite app_nil_r. split.
    + intros [H | H]; [exact (Hx H) | exact (Hn H)].
    + apply incl_cons; [now left|]. apply incl_tl, Hi.
Qed.

Lemma roots_in_forest_ids (F : list comment) (a : Z) :
  In a (map id F) -> In a (forest_ids F).
Proof.
  induction F as [|c F IH]; simpl; [tauto|].
  rewrite comment_ids_eq. intros [<- | H]; [now left|].
  right. apply in_or_app. right. exact (IH H).
Qed.

Lemma flat_map_Forall_eq {A B : Type} (f g : A -> list B) (l : list A) :
  Forall (fun a => f a = g a) l -> flat_map f l = flat_map g l.
Proof. induction 1 as [|a l Ha _ IH]; simpl; [reflexivity|]. now rewrite Ha, IH. Qed.

Lemma rendered_ids_upto (c : comment) :
  forall n d, (n + d = 2)%nat -> rendered_ids d c = ids_upto n c.
Proof.
  induction c as [i ct ca ua uid p us rs cty cid IH] using comment_ind.
  intros n d Hnd.
  destruct n as [|m].
  - simpl in Hnd. subst d. destruct rs; reflexivity.
  - assert (Hd : (d <? 2)%nat = true) by (apply Nat.ltb_lt; lia).
    destruct rs as [|r rs]; [reflexivity|].
    cbn [rendered_ids ids_upto has_replies replies andb]. rewrite Hd. f_equal.
    apply flat_map_Forall_eq. eapply Forall_impl; [|exact IH].
    intros a Ha. apply Ha. lia.
Qed.

Lemma resp_ok_204 {J} (r : raw_response J) : status r = 204 -> resp_ok r = true.
Proof. intros H. unfold resp_ok. rewrite H. reflexivity. Qed.

Lemma handleResponse_not_ok {J} (empty : J) (detail : J -> option js_value)
    (r : raw_response J) :
  resp_ok r = false -> exists m, handleResponse empty detail r = Failed m.
Proof. intros H. unfold handleResponse. rewrite H. simpl. eauto. Qed.

(** ** Properties *)

(** The store actions find a usable token exactly when the auth store's
    token or the [localStorage] token is a non-empty string. *)
Theorem token_usable_iff (storeToken localToken : option string) :
  js_truthy_token (getAuthToken storeToken localToken)
  = js_truthy_token storeToken || js_truthy_token localToken.
Proof.
  unfold getAuthToken. destruct (js_truthy_token storeToken) eqn:E; simpl; [exact E|reflexivity].
Qed.

(** The section decides "logged in" from the auth store alone: with only
    a [localStorage] token it sends the user to the login page, although
    the store actions would accept the request. *)
Theorem section_ignores_local_token (localToken : option string) (ui : section_ui) (pid : Z) :
  js_truthy_token localToken = true ->
  fst (handleSubmitComment None ui) = NavigateLogin /\
  fst (handleSubmitReply None ui pid) = NavigateLogin /\
  js_truthy_token (getAuthToken None localToken) = true.
Proof. intros H. repeat split. exact H. Qed.

Lemma section_ignores_local_token_witness :
  js_truthy_token (Some "tok"%string) = true /\
  fst (handleSubmitComment None (mkUi "hi" None "")) = NavigateLogin.
Proof.
  split; [reflexivity|].
  exact (proj1 (section_ignores_local_token (Some "tok"%string) (mkUi "hi" None "") 1 eq_refl)).
Defined.

(** Adding a comment without a usable token changes nothing in the
    forest, clears [isLoading] and stores the login message. *)
Theorem add_without_token (st : CommentState) (storeToken localToken : option string)
    (req_parent : option Z) (r : response comment) :
  js_truthy_token (getAuthToken storeToken localToken) = false ->
  addCommentAction st storeToken localToken req_parent r
  = mkState (comments st) false (Some "You must be logged in to add a comment"%string).
Proof. intros H. unfold addCommentAction. now rewrite H. Qed.

Lemma add_without_token_witness :
  js_truthy_token (getAuthToken (Some ""%string) None) = false /\
  addCommentAction (mkState ex_F false None) (Some ""%string) None None (Failed "x"%string)
  = mkState ex_F false (Some "You must be logged in to add a comment"%string).
Proof. split; [reflexivity|]. apply add_without_token. reflexivity. Defined.

(** With a usable token, a request that fails (an error thrown by [fetch]
    or [handleResponse]) leaves the forest as it was in [addGameComment],
    [updateComment] and [deleteComment], and stores the error's message. *)
Theorem failed_request_keeps_forest (st : CommentState) (storeToken localToken : option string)
    (req_parent : option Z) (commentId : Z) (m : string) :
  js_truthy_token (getAuthToken storeToken localToken) = true ->
  addCommentAction st storeToken localToken req_parent (Failed m) = mkState (comments st) false (Some m) /\
  updateComment st storeToken localToken commentId (Failed m) = mkState (comments st) false (Some m) /\
  deleteComment st storeToken localToken commentId (Failed m) = mkState (comments st) false (Some m).
Proof. intros H. unfold addCommentAction, updateComment, deleteComment. now rewrite H. Qed.

Lemma failed_request_keeps_forest_witness :
  js_truthy_token (getAuthToken (Some "tok"%string) None) = true /\
  deleteComment (mkState ex_F false None) (Some "tok"%string) None 1 (Failed "Error: 403"%string)
  = mkState ex_F false (Some "Error: 403"%string).
Proof.
  split; [reflexivity|].
  exact (proj2 (proj2 (failed_request_keeps_forest (mkState ex_F false None) (Some "tok"%string)
          None None 1 "Error: 403"%string eq_refl))).
Defined.

(** After a fetch, the section shows the error when the fetch failed with a
    non-empty message, and otherwise the list or the "No comments yet" text
    according to the fetched data; a failed fetch never shows the comments
    loaded before it. *)
Theorem view_after_fetch (st : CommentState) (r : response (list comment)) :
  section_view_of (fetchComments st r)
  = match r with
    | Failed m => if String.eqb m ""%string then VNoComments else VError
    | Ok [] => VNoComments
    | Ok (_ :: _) => VList
    end.
Proof.
  destruct r as [[|c l] | m]; try reflexivity.
  unfold section_view_of, fetchComments. simpl.
  destruct (String.eqb m ""); reflexivity.
Qed.

(** A response outside 200-299 never yields a value; when its body parses
    and carries a non-empty string [detail], that string is the error
    message. *)
Theorem handleResponse_error_status {J} (empty : J) (detail : J -> option js_value)
    (r : raw_response J) :
  resp_ok r = false ->
  (forall v, handleResponse empty detail r <> Ok v) /\
  (forall j s, body r = Some j -> detail j = Some (JStr s) -> s <> ""%string ->
     handleResponse empty detail r = Failed s).
Proof.
  intros H. split.
  - intros v. destruct (handleResponse_not_ok empty detail r H) as [m ->]. discriminate.
  - intros j s Hb Hd Hs. unfold handleResponse. rewrite H, Hb, Hd. simpl.
    apply String.eqb_neq in Hs. rewrite Hs. reflexivity.
Qed.

Lemma handleResponse_error_status_witness :
  resp_ok (mkResp 400 "Bad Request" (Some (JStr "Comment too long"))) = false /\
  handleResponse JObj (fun j => Some j) (mkResp 400 "Bad Request" (Some (JStr "Comment too long")))
  = Failed "Comment too long"%string.
Proof.
  split; [reflexivity|].
  apply (proj2 (handleResponse_error_status JObj (fun j => Some j)
           (mkResp 400 "Bad Request" (Some (JStr "Comment too long"))) eq_refl)
           (JStr "Comment too long") "Comment too long"%string eq_refl eq_refl).
  discriminate.
Defined.

(** Edge: an error response whose [detail] is an empty array gives an
    [Error] with the empty message; after a fetch failing this way the
    section shows "No comments yet" rather than an error. *)
Theorem empty_detail_hides_error {J} (empty : J) (detail : J -> option js_value)
    (r : raw_response J) (j : J) (st : CommentState) :
  resp_ok r = false -> body r = Some j -> detail j = Some (JArr []) ->
  handleResponse empty detail r = Failed ""%string /\
  section_view_of (fetchComments st (Failed ""%string)) = VNoComments.
Proof.
  intros H Hb Hd. split; [|reflexivity].
  unfold handleResponse. rewrite H, Hb, Hd. reflexivity.
Qed.

Lemma empty_detail_hides_error_witness :
  resp_ok (mkResp 422 "Unprocessable Entity" (Some (JArr []))) = false /\
  handleResponse JObj (fun j => Some j) (mkResp 422 "Unprocessable Entity" (Some (JArr [])))
  = Failed ""%string.
Proof.
  split; [reflexivity|].
  exact (proj1 (empty_detail_hides_error JObj (fun j => Some j)
          (mkResp 422 "Unprocessable Entity" (Some (JArr []))) (JArr [])
          (mkState [] false None) eq_refl eq_refl eq_refl)).
Defined.

(** With a usable token, [deleteComment] removes the comment exactly when
    the response status is in 200-299 (204 included) and otherwise leaves
    the forest unchanged and records an error. *)
Theorem delete_applies_iff_ok {J} (st : CommentState) (storeToken localToken : option string)
    (commentId : Z) (empty : J) (detail : J -> option js_value) (r : raw_response J) :
  js_truthy_token (getAuthToken storeToken localToken) = true ->
  let st' := deleteCommentRaw st storeToken localToken commentId empty detail r in
  isLoading st' = false /\
  (resp_ok r = true -> comments st' = Replace (comments st) commentId None /\ error st' = None) /\
  (resp_ok r = false -> comments st' = comments st /\ error st' <> None).
Proof.
  intros Ht. unfold deleteCommentRaw, deleteComment. rewrite Ht. simpl negb.
  destruct (resp_ok r) eqn:Hok.
  - rewrite andb_false_r. cbn. repeat split; discriminate.
  - assert (Hs : (status r =? 204) = false).
    { apply Z.eqb_neq. intros E. rewrite (resp_ok_204 r E) in Hok. discriminate. }
    rewrite Hs. destruct (handleResponse_not_ok empty detail r Hok) as [m ->].
    cbn. repeat split; discriminate.
Qed.

Lemma delete_applies_iff_ok_witness :
  js_truthy_token (getAuthToken (Some "tok"%string) None) = true /\
  comments (deleteCommentRaw (mkState ex_F false None) (Some "tok"%string) None 2
              JObj (fun j => Some j) (mkResp 204 "No Content" None))
  = [mk 1 None "a" []].
Proof.
  split; [reflexivity|].
  destruct (delete_applies_iff_ok (mkState ex_F false None) (Some "tok"%string) None 2
              JObj (fun j => Some j) (mkResp 204 "No Content" None) eq_refl) as [_ [H _]].
  rewrite (proj1 (H eq_refl)). reflexivity.
Defined.


(** A deletion removes the id from the whole forest, at any depth, and
    never brings in an id that was not there; this holds whether or not
    the ids are unique. *)
Theorem delete_removes_id (F : list comment) (x : Z) :
  ~ In x (forest_ids (Replace F x None)) /\
  incl (forest_ids (Replace F x None)) (forest_ids F).
Proof.
  apply remove_ids_of. apply Forall_forall. intros c _. apply remove_ids_step.
Qed.

(** With unique ids, clicking "Reply" on a comment opens a form only when
    that comment is top-level: the forms rendered are [[x]] for a root
    [x] and none for a nested comment. *)
Theorem reply_form_only_for_roots (F : list comment) (ui : section_ui) (x : Z) :
  NoDup (forest_ids F) ->
  reply_forms (handleStartReply ui x) F
  = if in_dec Z.eq_dec x (map id F) then [x] else [].
Proof.
  unfold reply_forms, handleStartReply. cbn [replyingTo].
  induction F as [|c F IH]; intros Hnd; [reflexivity|].
  rewrite forest_ids_cons in Hnd. destruct c as [i ct ca ua uid p us rs cty cid].
  cbn [comment_ids] in Hnd. cbn [app] in Hnd.
  inversion Hnd as [|? ? Hi Hnd']; subst.
  assert (HF : NoDup (forest_ids F)) by exact (NoDup_app_remove_l _ _ Hnd').
  assert (Hr : ~ In i (map id F)).
  { intros H. apply Hi, in_or_app. right. now apply roots_in_forest_ids. }
  cbn [filter map id]. destruct (Z.eqb_spec x i) as [-> | Hne].
  - cbn [map]. rewrite IH by exact HF.
    destruct (in_dec Z.eq_dec i (map id F)) as [H|_]; [contradiction|].
    destruct (in_dec Z.eq_dec i (i :: map id F)) as [_|H]; [reflexivity|].
    exfalso. apply H. left. reflexivity.
  - rewrite IH by exact HF.
    destruct (in_dec Z.eq_dec x (map id F)) as [H|H];
      destruct (in_dec Z.eq_dec x (i :: map id F)) as [H'|H']; try reflexivity.
    + exfalso. apply H'. right. exact H.
    + exfalso. destruct H' as [E|E]; [congruence | contradiction].
Qed.

Lemma reply_form_only_for_roots_witness :
  NoDup (forest_ids ex_F) /\ reply_forms (handleStartReply (mkUi "" None "") 2) ex_F = [].
Proof.
  split; [apply (proj1 (nodupb_spec _)); reflexivity|].
  rewrite (reply_form_only_for_roots ex_F (mkUi "" None "") 2).
  - reflexivity.
  - apply (proj1 (nodupb_spec _)); reflexivity.
Defined.

(** On first render (no "Show replies" toggled) the thread shows each
    top-level comment with its replies down to two levels below it, and
    nothing deeper. *)
Theorem initial_render_depth_two (F : list comment) :
  initially_rendered F = flat_map (ids_upto 2) F.
Proof.
  unfold initially_rendered. apply flat_map_Forall_eq.
  apply Forall_forall. intros c _. apply rendered_ids_upto. reflexivity.
Qed.

(** The submit handlers: without an auth-store token they only navigate to
    the login page; a request they send is a top-level comment with the
    non-blank text of the main box, or a reply under the given parent with
    the reply box's text, after which the reply form is closed. *)
Theorem submit_handlers_effects (storeToken : option string) (ui : section_ui) (pid : Z)
    (c : string) (p : option Z) :
  (fst (handleSubmitComment storeToken ui) = NavigateLogin <-> js_truthy_token storeToken = false) /\
  (fst (handleSubmitReply storeToken ui pid) = NavigateLogin <-> js_truthy_token storeToken = false) /\
  (fst (handleSubmitComment storeToken ui) = SendAdd c p ->
     c = newComment ui /\ p = None /\ js_trim_nonempty c = true /\
     newComment (snd (handleSubmitComment storeToken ui)) = ""%string) /\
  (fst (handleSubmitReply storeToken ui pid) = SendAdd c p ->
     c = replyContent ui /\ p = Some pid /\ js_trim_nonempty c = true /\
     replyingTo (snd (handleSubmitReply storeToken ui pid)) = None).
Proof.
  unfold handleSubmitComment, handleSubmitReply.
  destruct (js_truthy_token storeToken); cbn [negb].
  - destruct (js_trim_nonempty (newComment ui)) eqn:E1;
      destruct (js_trim_nonempty (replyContent ui)) eqn:E2; cbn [fst snd];
      (split; [split; discriminate|]);
      (split; [split; discriminate|]);
      split; intros Hs; try discriminate;
      injection Hs as <- <-; auto.
  - repeat split; auto; discriminate.
Qed.
